(** * Ten-pin bowling scorer: a shallow embedding of [bowling_game.py]

    The Python class [BowlingGame] owns one mutable attribute, the list
    [rolls].  Its methods are embedded as computations in a small
    state-and-exception monad over the instance: a computation takes the
    instance and gives back an outcome (a returned value or a raised
    exception) together with the instance as the call left it.

    Python integers are unbounded, so pin counts and scores are [Z].
    [roll_index] starts at 0 and is only ever incremented, so it is a [nat];
    reading [self.rolls[k]] with [k] at or beyond the length raises
    [IndexError], whereas a slice silently clamps to the list. *)

From Stdlib Require Import String ZArith List Bool Arith Lia.
Import ListNotations.

Local Open Scope Z_scope.

(** ** Exceptions, outcomes and the instance *)

Inductive exn : Type :=
| ValueError (msg : string)
| IndexError.

Inductive outcome (A : Type) : Type :=
| Return (a : A)
| Raise (e : exn).

Arguments Return {A} a.
Arguments Raise {A} e.

Record BowlingGame : Type := mkGame { rolls : list Z }.

(** [__init__]: a new game has an empty rolls list. *)
Definition init : BowlingGame := {| rolls := [] |}.

(** ** The method monad *)

Definition M (A : Type) : Type := BowlingGame -> outcome A * BowlingGame.

Definition ret {A} (a : A) : M A := fun self => (Return a, self).

Definition raise {A} (e : exn) : M A := fun self => (Raise e, self).

Definition bind {A B} (m : M A) (k : A -> M B) : M B :=
  fun self =>
    match m self with
    | (Return a, self') => k a self'
    | (Raise e, self') => (Raise e, self')
    end.

Declare Scope py_scope.
Delimit Scope py_scope with py.
Notation "x <- m ;; k" := (bind m (fun x => k))
  (at level 61, m at next level, right associativity) : py_scope.
Notation "m ;;; k" := (bind m (fun _ => k))
  (at level 61, right associativity) : py_scope.
Local Open Scope py_scope.

(** Primitive accesses to [self.rolls]. *)

(** [len(self.rolls)] *)
Definition len_rolls : M nat :=
  fun self => (Return (length (rolls self)), self).

(** [self.rolls[k]] for a non-negative [k] *)
Definition getitem (k : nat) : M Z :=
  fun self =>
    match nth_error (rolls self) k with
    | Some v => (Return v, self)
    | None => (Raise IndexError, self)
    end.

(** [self.rolls[lo:hi]] for non-negative bounds *)
Definition slice (l : list Z) (lo hi : nat) : list Z :=
  firstn (hi - lo) (skipn lo l).

Definition getslice (lo hi : nat) : M (list Z) :=
  fun self => (Return (slice (rolls self) lo hi), self).

(** [self.rolls.append(pins)] *)
Definition append (pins : Z) : M unit :=
  fun self => (Return tt, {| rolls := rolls self ++ [pins] |}).

(** Python's built-in [sum]: starts from 0 and adds from the left. *)
Definition sum (l : list Z) : Z := fold_left Z.add l 0.

(** ** Internal helper methods *)

(** [roll_index < len(self.rolls) and self.rolls[roll_index] == 10] *)
Definition _is_strike (roll_index : nat) : M bool :=
  n <- len_rolls ;;
  if (roll_index <? n)%nat
  then v <- getitem roll_index ;; ret (v =? 10)
  else ret false.

(** [roll_index + 1 < len(self.rolls)
     and self.rolls[roll_index] + self.rolls[roll_index + 1] == 10] *)
Definition _is_spare (roll_index : nat) : M bool :=
  n <- len_rolls ;;
  if (roll_index + 1 <? n)%nat
  then a <- getitem roll_index ;;
       b <- getitem (roll_index + 1) ;;
       ret (a + b =? 10)
  else ret false.

(** [sum(self.rolls[roll_index + 1 : roll_index + 3])] *)
Definition _strike_bonus (roll_index : nat) : M Z :=
  s <- getslice (roll_index + 1) (roll_index + 3) ;;
  ret (sum s).

(** [self.rolls[roll_index + 2] if roll_index + 2 < len(self.rolls) else 0] *)
Definition _spare_bonus (roll_index : nat) : M Z :=
  n <- len_rolls ;;
  if (roll_index + 2 <? n)%nat
  then getitem (roll_index + 2)
  else ret 0.

(** ** [score] *)

(** The body of [for frame in range(10)], with [frames] iterations left and
    the two loop-carried locals [result] and [roll_index]. *)
Fixpoint score_loop (frames : nat) (result : Z) (roll_index : nat) : M Z :=
  match frames with
  | O => ret result
  | S frames' =>
      st <- _is_strike roll_index ;;
      if st
      then b <- _strike_bonus roll_index ;;
           score_loop frames' (result + (10 + b)) (roll_index + 1)
      else
        sp <- _is_spare roll_index ;;
        if sp
        then b <- _spare_bonus roll_index ;;
             score_loop frames' (result + (10 + b)) (roll_index + 2)
        else a <- getitem roll_index ;;
             b <- getitem (roll_index + 1) ;;
             score_loop frames' (result + (a + b)) (roll_index + 2)
  end.

Definition score : M Z := score_loop 10 0 0.

(** ** [is_finished] *)

(** The loop [for _ in range(9)].  [None] stands for the early
    [return False]; [Some roll_index] is the cursor when the loop runs to
    its end. *)
Fixpoint first_nine (frames : nat) (roll_index : nat) : M (option nat) :=
  match frames with
  | O => ret (Some roll_index)
  | S frames' =>
      n <- len_rolls ;;
      if (n <=? roll_index)%nat
      then ret None
      else v <- getitem roll_index ;;
           if v =? 10
           then first_nine frames' (roll_index + 1)
           else first_nine frames' (roll_index + 2)
  end.

Definition is_finished : M bool :=
  r <- first_nine 9 0 ;;
  match r with
  | None => ret false
  | Some roll_index =>
      n <- len_rolls ;;
      if (n <=? roll_index)%nat
      then ret false
      else
        first <- getitem roll_index ;;
        n1 <- len_rolls ;;
        second <- (if (roll_index + 1 <? n1)%nat
                   then v <- getitem (roll_index + 1) ;; ret (Some v)
                   else ret None) ;;
        if first =? 10
        then n2 <- len_rolls ;; ret (roll_index + 3 <=? n2)%nat
        else
          if match second with
             | Some s => first + s =? 10
             | None => false
             end
          then n3 <- len_rolls ;; ret (roll_index + 3 <=? n3)%nat
          else ret (match second with Some _ => true | None => false end)
  end.

(** ** [roll] *)

Definition msg_pins : string := "Pins must be between 0 and 10".
Definition msg_finished : string := "Game already finished".

Definition roll (pins : Z) : M unit :=
  if (pins <? 0) || (pins >? 10)
  then raise (ValueError msg_pins)
  else
    fin <- is_finished ;;
    if fin
    then raise (ValueError msg_finished)
    else append pins.

(** The two failure kinds of [roll]; both are Python [ValueError]s and are
    told apart by their message. *)
Definition InvalidRollValue : exn := ValueError msg_pins.
Definition GameAlreadyComplete : exn := ValueError msg_finished.

(** ** Test helpers of [game_testing.py] *)

(** [roll_many(game, rolls, pins)] *)
Fixpoint roll_many (n : nat) (pins : Z) : M unit :=
  match n with
  | O => ret tt
  | S n' => roll pins ;;; roll_many n' pins
  end.

Definition roll_spare : M unit := roll 5 ;;; roll 5.

Definition roll_strike : M unit := roll 10.

(** Rolling a given list of pin counts in order. *)
Fixpoint roll_all (ps : list Z) : M unit :=
  match ps with
  | [] => ret tt
  | p :: ps' => roll p ;;; roll_all ps'
  end.

(** Calling a method [n] times on the same instance, the caller catching
    whatever each call raises; the outcomes are collected in call order. *)
Fixpoint call_times {A} (n : nat) (m : M A) (self : BowlingGame)
  : list (outcome A) * BowlingGame :=
  match n with
  | O => ([], self)
  | S n' =>
      let (o, self') := m self in
      let (os, self'') := call_times n' m self' in
      (o :: os, self'')
  end.

(** States reachable from a new game through successful [roll] calls. *)
Inductive reachable : BowlingGame -> Prop :=
| reach_init : reachable init
| reach_roll (g g' : BowlingGame) (pins : Z) :
    reachable g -> roll pins g = (Return tt, g') -> reachable g'.

(** ** The specification's positional walks

    These follow the wording of the specification, over a plain roll
    sequence, and are what the methods above are compared with. *)

(** Strike at the cursor: [rolls[i] == 10]. *)
Definition strike_at (l : list Z) (i : nat) : bool :=
  match nth_error l i with
  | Some a => a =? 10
  | None => false
  end.

(** Spare at the cursor: the second roll is present and
    [rolls[i] + rolls[i+1] == 10]. *)
Definition spare_at (l : list Z) (i : nat) : bool :=
  match nth_error l i, nth_error l (i + 1) with
  | Some a, Some b => a + b =? 10
  | _, _ => false
  end.

(** Frames 1 through 9: not complete when the cursor reaches the end of
    the rolls; a strike consumes one roll, anything else two. *)
Fixpoint spec_cursor (l : list Z) (frames i : nat) : option nat :=
  match frames with
  | O => Some i
  | S frames' =>
      if (length l <=? i)%nat then None
      else if strike_at l i then spec_cursor l frames' (i + 1)
           else spec_cursor l frames' (i + 2)
  end.

(** The tenth frame: a strike or a spare needs the three rolls at
    [i], [i+1], [i+2]; an open frame needs the second roll. *)
Definition spec_tenth_frame (l : list Z) (i : nat) : bool :=
  if (length l <=? i)%nat then false
  else if strike_at l i || spare_at l i
       then (i + 3 <=? length l)%nat
       else (i + 2 <=? length l)%nat.

Definition spec_is_complete (l : list Z) : bool :=
  match spec_cursor l 9 0 with
  | None => false
  | Some i => spec_tenth_frame l i
  end.

(** The ten-frame scoring walk with plain indexing; [None] when an index
    it names is not in range. *)
Fixpoint spec_walk (l : list Z) (frames : nat) (total : Z) (i : nat)
  : option Z :=
  match frames with
  | O => Some total
  | S frames' =>
      match nth_error l i with
      | None => None
      | Some a =>
          if a =? 10
          then match nth_error l (i + 1), nth_error l (i + 2) with
               | Some b, Some c => spec_walk l frames' (total + (10 + b + c)) (i + 1)
               | _, _ => None
               end
          else match nth_error l (i + 1) with
               | None => None
               | Some b =>
                   if a + b =? 10
                   then match nth_error l (i + 2) with
                        | Some c => spec_walk l frames' (total + (10 + c)) (i + 2)
                        | None => None
                        end
                   else spec_walk l frames' (total + (a + b)) (i + 2)
               end
      end
  end.

Definition spec_total_score (l : list Z) : option Z := spec_walk l 10 0 0.

(** The same walk where a roll that is not recorded yet counts as 0. *)
Fixpoint padded_walk (l : list Z) (frames : nat) (total : Z) (i : nat) : Z :=
  match frames with
  | O => total
  | S frames' =>
      let a := nth i l 0 in
      let b := nth (i + 1) l 0 in
      let c := nth (i + 2) l 0 in
      if a =? 10 then padded_walk l frames' (total + (10 + b + c)) (i + 1)
      else if a + b =? 10 then padded_walk l frames' (total + (10 + c)) (i + 2)
           else padded_walk l frames' (total + (a + b)) (i + 2)
  end.

Definition padded_total (l : list Z) : Z := padded_walk l 10 0 0.

(** Frames 1 through 9 are resolved and the tenth frame is a strike or a
    spare whose bonus rolls are not all recorded yet. *)
Definition awaiting_bonus (l : list Z) : bool :=
  match spec_cursor l 9 0 with
  | None => false
  | Some i => (strike_at l i || spare_at l i) && (length l <? i + 3)%nat
  end.

(** What [score_loop] computes, read off the rolls list alone. *)
Fixpoint score_from (l : list Z) (frames : nat) (result : Z) (i : nat)
  : outcome Z :=
  match frames with
  | O => Return result
  | S frames' =>
      match nth_error l i with
      | None => Raise IndexError
      | Some a =>
          if a =? 10
          then score_from l frames'
                 (result + (10 + sum (slice l (i + 1) (i + 3)))) (i + 1)
          else match nth_error l (i + 1) with
               | None => Raise IndexError
               | Some b =>
                   if a + b =? 10
                   then score_from l frames'
                          (result + (10 + match nth_error l (i + 2) with
                                          | Some c => c
                                          | None => 0
                                          end)) (i + 2)
                   else score_from l frames' (result + (a + b)) (i + 2)
               end
      end
  end.

(** [p] is a proper prefix of [l]. *)
Definition proper_prefix (p l : list Z) : Prop :=
  exists t, t <> [] /\ l = p ++ t.

(** Every roll of the sequence is a pin count between 0 and 10. *)
Definition all_in_range (l : list Z) : Prop :=
  Forall (fun v => 0 <= v <= 10) l.

(** Some concrete games. *)
Definition perfect_game : BowlingGame := {| rolls := repeat 10 12 |}.
Definition ten_strikes : BowlingGame := {| rolls := repeat 10 10 |}.
Definition all_gutters : BowlingGame := {| rolls := repeat 0 20 |}.
Definition nine_strikes_open : BowlingGame :=
  {| rolls := repeat 10 9 ++ [3; 4] |}.
Definition all_fives : BowlingGame := {| rolls := repeat 5 21 |}.

(** A game written frame by frame, each frame as its two rolls, and the
    rolls list such a game leaves behind. *)
Definition flat_frames (fs : list (Z * Z)) : list Z :=
  flat_map (fun f => [fst f; snd f]) fs.

(** A frame that is neither a strike nor a spare. *)
Definition open_frame (f : Z * Z) : Prop :=
  fst f <> 10 /\ fst f + snd f <> 10.

(** Every roll is non-negative. *)
Definition all_nonneg (l : list Z) : Prop := Forall (fun v => 0 <= v) l.

(** The test suite of [game_testing.py], replayed on the embedding. *)

Example test_all_gutters :
  fst ((roll_many 20 0 ;;; score) init) = Return 0.
Proof. vm_compute. reflexivity. Qed.

Example test_all_ones :
  fst ((roll_many 20 1 ;;; score) init) = Return 20.
Proof. vm_compute. reflexivity. Qed.

Example test_one_spare :
  fst ((roll_spare ;;; roll 3 ;;; roll_many 17 0 ;;; score) init) = Return 16.
Proof. vm_compute. reflexivity. Qed.

Example test_one_strike :
  fst ((roll_strike ;;; roll 3 ;;; roll 4 ;;; roll_many 16 0 ;;; score) init)
  = Return 24.
Proof. vm_compute. reflexivity. Qed.

Example test_10th_frame_spare_bonus :
  fst ((roll_many 18 0 ;;; roll_spare ;;; roll 7 ;;; score) init) = Return 17.
Proof. vm_compute. reflexivity. Qed.

Example test_10th_frame_strike_bonus :
  fst ((roll_many 18 0 ;;; roll_strike ;;; roll 7 ;;; roll 2 ;;; score) init)
  = Return 19.
Proof. vm_compute. reflexivity. Qed.

Example test_no_roll_after_finished_game :
  fst ((roll_many 12 10 ;;; roll 10) init) = Raise (ValueError msg_finished).
Proof. vm_compute. reflexivity. Qed.

Example test_invalid_roll_negative :
  fst (roll (-1) init) = Raise (ValueError msg_pins).
Proof. vm_compute. reflexivity. Qed.

Example test_invalid_roll_too_many_pins :
  fst (roll 11 init) = Raise (ValueError msg_pins).
Proof. vm_compute. reflexivity. Qed.

(** ** Running the primitives and helpers *)

Lemma nth_error_lt_some (l : list Z) (i : nat) :
  (i < length l)%nat -> exists v, nth_error l i = Some v.
Proof.
  intros H. destruct (nth_error l i) eqn:E; eauto.
  apply nth_error_None in E. lia.
Qed.

Lemma nth_error_ge_none (l : list Z) (i : nat) :
  (length l <= i)%nat -> nth_error l i = None.
Proof. apply nth_error_None. Qed.

Lemma nth_error_some_lt (l : list Z) (i : nat) (v : Z) :
  nth_error l i = Some v -> (i < length l)%nat.
Proof. intros H. apply nth_error_Some. congruence. Qed.

Lemma _is_strike_run (i : nat) (g : BowlingGame) :
  _is_strike i g = (Return (strike_at (rolls g) i), g).
Proof.
  unfold _is_strike, strike_at, bind, len_rolls, getitem, ret.
  destruct (Nat.ltb_spec i (length (rolls g))) as [H | H].
  - destruct (nth_error_lt_some _ _ H) as [v ->]. reflexivity.
  - rewrite (nth_error_ge_none _ _ H). reflexivity.
Qed.

Lemma _is_spare_run (i : nat) (g : BowlingGame) :
  _is_spare i g = (Return (spare_at (rolls g) i), g).
Proof.
  unfold _is_spare, spare_at, bind, len_rolls, getitem, ret.
  destruct (Nat.ltb_spec (i + 1) (length (rolls g))) as [H | H].
  - destruct (nth_error_lt_some (rolls g) i) as [a ->]; [lia |].
    destruct (nth_error_lt_some _ _ H) as [b ->]. reflexivity.
  - rewrite (nth_error_ge_none _ (i + 1) H).
    destruct (nth_error (rolls g) i); reflexivity.
Qed.

Lemma _strike_bonus_run (i : nat) (g : BowlingGame) :
  _strike_bonus i g = (Return (sum (slice (rolls g) (i + 1) (i + 3))), g).
Proof. reflexivity. Qed.

Lemma _spare_bonus_run (i : nat) (g : BowlingGame) :
  _spare_bonus i g =
  (Return (match nth_error (rolls g) (i + 2) with Some c => c | None => 0 end),
   g).
Proof.
  unfold _spare_bonus, bind, len_rolls, getitem, ret.
  destruct (Nat.ltb_spec (i + 2) (length (rolls g))) as [H | H].
  - destruct (nth_error_lt_some _ _ H) as [c ->]. reflexivity.
  - rewrite (nth_error_ge_none _ _ H). reflexivity.
Qed.

Lemma score_loop_run (frames : nat) :
  forall (result : Z) (i : nat) (g : BowlingGame),
    score_loop frames result i g = (score_from (rolls g) frames result i, g).
Proof.
  induction frames as [| k IH]; intros result i g; [reflexivity |].
  cbn [score_loop score_from]. unfold bind at 1.
  rewrite _is_strike_run. unfold strike_at.
  destruct (nth_error (rolls g) i) as [a |] eqn:Ea.
  - destruct (a =? 10) eqn:E10.
    + unfold bind. rewrite _strike_bonus_run. apply IH.
    + unfold bind at 1. rewrite _is_spare_run. unfold spare_at. rewrite Ea.
      destruct (nth_error (rolls g) (i + 1)) as [b |] eqn:Eb.
      * destruct (a + b =? 10).
        -- unfold bind. rewrite _spare_bonus_run. apply IH.
        -- unfold bind, getitem. rewrite Ea, Eb. apply IH.
      * unfold bind, getitem. rewrite Ea, Eb. reflexivity.
  - unfold bind at 1. rewrite _is_spare_run. unfold spare_at. rewrite Ea.
    unfold bind, getitem. rewrite Ea. reflexivity.
Qed.

Lemma score_run (g : BowlingGame) :
  score g = (score_from (rolls g) 10 0 0, g).
Proof. apply score_loop_run. Qed.

Lemma first_nine_run (frames : nat) :
  forall (i : nat) (g : BowlingGame),
    first_nine frames i g = (Return (spec_cursor (rolls g) frames i), g).
Proof.
  induction frames as [| k IH]; intros i g; [reflexivity |].
  cbn [first_nine spec_cursor]. unfold bind, len_rolls, getitem, strike_at.
  destruct (Nat.leb_spec (length (rolls g)) i) as [H | H]; [reflexivity |].
  destruct (nth_error_lt_some _ _ H) as [v ->].
  destruct (v =? 10); apply IH.
Qed.

Lemma is_finished_run (g : BowlingGame) :
  is_finished g = (Return (spec_is_complete (rolls g)), g).
Proof.
  unfold is_finished, spec_is_complete. unfold bind at 1.
  rewrite first_nine_run.
  destruct (spec_cursor (rolls g) 9 0) as [i |]; [| reflexivity].
  unfold spec_tenth_frame, bind, len_rolls, getitem, ret, strike_at, spare_at.
  destruct (Nat.leb_spec (length (rolls g)) i) as [H | H]; [reflexivity |].
  destruct (nth_error_lt_some _ _ H) as [a ->].
  destruct (Nat.ltb_spec (i + 1) (length (rolls g))) as [H1 | H1].
  - destruct (nth_error_lt_some _ _ H1) as [b ->].
    destruct (a =? 10); [reflexivity |]. cbn [orb].
    destruct (a + b =? 10); [reflexivity |].
    f_equal. f_equal. symmetry. apply Nat.leb_le. lia.
  - rewrite (nth_error_ge_none _ _ H1).
    destruct (a =? 10); [reflexivity |]. cbn [orb].
    f_equal. f_equal. symmetry. apply Nat.leb_gt. lia.
Qed.

Lemma roll_run (pins : Z) (g : BowlingGame) :
  roll pins g =
  if (pins <? 0) || (pins >? 10) then (Raise InvalidRollValue, g)
  else if spec_is_complete (rolls g) then (Raise GameAlreadyComplete, g)
       else (Return tt, {| rolls := rolls g ++ [pins] |}).
Proof.
  unfold roll. destruct ((pins <? 0) || (pins >? 10)); [reflexivity |].
  unfold bind. rewrite is_finished_run.
  destruct (spec_is_complete (rolls g)); reflexivity.
Qed.

(** ** Facts about list reads *)

Lemma nth_error_default (l : list Z) (k : nat) :
  match nth_error l k with Some c => c | None => 0 end = nth k l 0.
Proof.
  destruct (nth_error l k) as [c |] eqn:E.
  - symmetry. apply nth_error_nth. exact E.
  - symmetry. apply nth_overflow. apply nth_error_None. exact E.
Qed.

Lemma nth_error_in_range (l : list Z) (k : nat) :
  (k < length l)%nat -> nth_error l k = Some (nth k l 0).
Proof. intros H. apply nth_error_nth'. exact H. Qed.

Lemma firstn_2_skipn (l : list Z) :
  forall k,
    firstn 2 (skipn k l) =
    match nth_error l k, nth_error l (k + 1) with
    | Some b, Some c => [b; c]
    | Some b, None => [b]
    | None, _ => []
    end.
Proof.
  induction l as [| x l IH]; intros k.
  - destruct k; reflexivity.
  - destruct k as [| k].
    + destruct l; reflexivity.
    + cbn [skipn nth_error Nat.add]. apply IH.
Qed.

(** The strike bonus is the sum of the next two rolls, an absent roll
    contributing nothing. *)
Lemma strike_bonus_padded (l : list Z) (i : nat) :
  sum (slice l (i + 1) (i + 3)) = nth (i + 1) l 0 + nth (i + 2) l 0.
Proof.
  unfold slice. replace (i + 3 - (i + 1))%nat with 2%nat by lia.
  rewrite firstn_2_skipn. replace (i + 1 + 1)%nat with (i + 2)%nat by lia.
  rewrite <- (nth_error_default l (i + 1)), <- (nth_error_default l (i + 2)).
  destruct (nth_error l (i + 1)) as [b |] eqn:Eb.
  - destruct (nth_error l (i + 2)) as [c |]; unfold sum; cbn; lia.
  - assert (nth_error l (i + 2) = None) as ->.
    { apply nth_error_None. apply nth_error_None in Eb. lia. }
    reflexivity.
Qed.

(** ** The cursor walk *)

Lemma spec_cursor_ge (l : list Z) (frames : nat) :
  forall i j, spec_cursor l frames i = Some j -> (i + frames <= j)%nat.
Proof.
  induction frames as [| k IH]; intros i j H; cbn [spec_cursor] in H.
  - injection H as <-. lia.
  - destruct (length l <=? i)%nat; [discriminate |].
    destruct (strike_at l i); apply IH in H; lia.
Qed.

(** Where the plain-indexing walk is defined, [score_loop] returns its
    value. *)
Lemma spec_walk_score (l : list Z) (frames : nat) :
  forall total i v,
    spec_walk l frames total i = Some v ->
    score_from l frames total i = Return v.
Proof.
  induction frames as [| k IH]; intros total i v H;
    cbn [spec_walk score_from] in *.
  - congruence.
  - destruct (nth_error l i) as [a |]; [| discriminate].
    destruct (a =? 10).
    + destruct (nth_error l (i + 1)) as [b |] eqn:Eb; [| discriminate].
      destruct (nth_error l (i + 2)) as [c |] eqn:Ec; [| discriminate].
      apply IH in H. rewrite <- H. f_equal.
      rewrite strike_bonus_padded.
      rewrite (nth_error_nth _ _ 0 Eb), (nth_error_nth _ _ 0 Ec). lia.
    + destruct (nth_error l (i + 1)) as [b |]; [| discriminate].
      destruct (a + b =? 10).
      * destruct (nth_error l (i + 2)) as [c |]; [| discriminate].
        apply IH. exact H.
      * apply IH. exact H.
Qed.

(** When the cursor walk over [frames] frames ends on a recorded roll,
    [score_loop] gets through those frames without raising, and the walks of
    the specification advance with it, by the same amount. *)
Lemma walk_frames (l : list Z) (frames : nat) :
  forall i j,
    spec_cursor l frames i = Some j ->
    (j < length l)%nat ->
    exists d,
      (forall k r,
          score_from l (frames + k) r i = score_from l k (r + d) j) /\
      (forall k r,
          padded_walk l (frames + k) r i = padded_walk l k (r + d) j) /\
      ((j + 2 <= length l)%nat ->
       forall k r,
         spec_walk l (frames + k) r i = spec_walk l k (r + d) j).
Proof.
  induction frames as [| n IH]; intros i j H Hj.
  - injection H as <-. exists 0. cbn [Nat.add].
    repeat split; intros; rewrite Z.add_0_r; reflexivity.
  - cbn [spec_cursor] in H.
    destruct (Nat.leb_spec (length l) i) as [Hi | Hi]; [discriminate |].
    unfold strike_at in H. rewrite (nth_error_in_range _ _ Hi) in H.
    destruct (nth i l 0 =? 10) eqn:E10.
    + pose proof (spec_cursor_ge _ _ _ _ H) as Hge.
      destruct (IH _ _ H Hj) as (d & Hs & Hp & Hw).
      exists (10 + nth (i + 1) l 0 + nth (i + 2) l 0 + d).
      split; [| split].
      * intros k r. cbn [Nat.add score_from].
        rewrite (nth_error_in_range _ _ Hi), E10, Hs, strike_bonus_padded.
        f_equal. lia.
      * intros k r. cbn [Nat.add padded_walk]. cbv zeta.
        rewrite E10, Hp. f_equal. lia.
      * intros Hj2 k r. cbn [Nat.add spec_walk].
        rewrite (nth_error_in_range _ _ Hi), E10.
        rewrite (nth_error_in_range l (i + 1)) by lia.
        rewrite (nth_error_in_range l (i + 2)) by lia.
        rewrite (Hw Hj2). f_equal. lia.
    + pose proof (spec_cursor_ge _ _ _ _ H) as Hge.
      destruct (IH _ _ H Hj) as (d & Hs & Hp & Hw).
      destruct (nth i l 0 + nth (i + 1) l 0 =? 10) eqn:Esp.
      * exists (10 + nth (i + 2) l 0 + d).
        split; [| split].
        -- intros k r. cbn [Nat.add score_from].
           rewrite (nth_error_in_range _ _ Hi), E10.
           rewrite (nth_error_in_range l (i + 1)) by lia.
           rewrite Esp, Hs, nth_error_default. f_equal. lia.
        -- intros k r. cbn [Nat.add padded_walk]. cbv zeta.
           rewrite E10, Esp, Hp. f_equal. lia.
        -- intros Hj2 k r. cbn [Nat.add spec_walk].
           rewrite (nth_error_in_range _ _ Hi), E10.
           rewrite (nth_error_in_range l (i + 1)) by lia.
           rewrite Esp.
           rewrite (nth_error_in_range l (i + 2)) by lia.
           rewrite (Hw Hj2). f_equal. lia.
      * exists (nth i l 0 + nth (i + 1) l 0 + d).
        split; [| split].
        -- intros k r. cbn [Nat.add score_from].
           rewrite (nth_error_in_range _ _ Hi), E10.
           rewrite (nth_error_in_range l (i + 1)) by lia.
           rewrite Esp, Hs. f_equal. lia.
        -- intros k r. cbn [Nat.add padded_walk]. cbv zeta.
           rewrite E10, Esp, Hp. f_equal. lia.
        -- intros Hj2 k r. cbn [Nat.add spec_walk].
           rewrite (nth_error_in_range _ _ Hi), E10.
           rewrite (nth_error_in_range l (i + 1)) by lia.
           rewrite Esp.
           rewrite (Hw Hj2). f_equal. lia.
Qed.

(** When the cursor walk runs out of rolls, or ends at or beyond the end
    of the rolls, [score_loop] raises [IndexError] if it is asked for at
    least one more frame. *)
Lemma score_from_raises (l : list Z) (frames : nat) :
  forall i,
    match spec_cursor l frames i with
    | None => True
    | Some j => (length l <= j)%nat
    end ->
    forall k r, score_from l (frames + S k) r i = Raise IndexError.
Proof.
  induction frames as [| n IH]; intros i H k r.
  - cbn [spec_cursor] in H. cbn [Nat.add score_from].
    rewrite (nth_error_ge_none _ _ H). reflexivity.
  - cbn [spec_cursor] in H. cbn [Nat.add score_from].
    destruct (Nat.leb_spec (length l) i) as [Hi | Hi].
    + rewrite (nth_error_ge_none _ _ Hi). reflexivity.
    + unfold strike_at in H. rewrite (nth_error_in_range _ _ Hi) in *.
      destruct (nth i l 0 =? 10).
      * apply IH. exact H.
      * destruct (nth_error l (i + 1)) as [b |]; [| reflexivity].
        destruct (nth i l 0 + b =? 10); apply IH; exact H.
Qed.

(** A complete tenth frame has its first two rolls recorded, and the
    plain-indexing walk scores it. *)
Lemma tenth_frame_walk (l : list Z) (j : nat) :
  spec_tenth_frame l j = true ->
  (j + 2 <= length l)%nat /\
  exists x, forall r, spec_walk l 1 r j = Some (r + x).
Proof.
  unfold spec_tenth_frame, strike_at, spare_at. intros H.
  destruct (Nat.leb_spec (length l) j) as [Hj | Hj]; [discriminate |].
  rewrite (nth_error_in_range _ _ Hj) in H.
  cbn [spec_walk]. rewrite (nth_error_in_range _ _ Hj).
  destruct (nth j l 0 =? 10) eqn:E10.
  - cbn [orb] in H. apply Nat.leb_le in H. split; [lia |].
    rewrite (nth_error_in_range l (j + 1)) by lia.
    rewrite (nth_error_in_range l (j + 2)) by lia.
    eexists. intros r. reflexivity.
  - cbn [orb] in H.
    destruct (nth_error l (j + 1)) as [b |] eqn:Eb.
    + pose proof (nth_error_some_lt _ _ _ Eb) as Hb.
      destruct (nth j l 0 + b =? 10).
      * apply Nat.leb_le in H. split; [lia |].
        rewrite (nth_error_in_range l (j + 2)) by lia.
        eexists. intros r. reflexivity.
      * split; [lia |]. eexists. intros r. reflexivity.
    + apply Nat.leb_le in H. apply nth_error_None in Eb. lia.
Qed.

(** On a complete game the plain-indexing walk is defined. *)
Lemma complete_spec_walk_defined (l : list Z) :
  spec_is_complete l = true -> exists v, spec_total_score l = Some v.
Proof.
  unfold spec_is_complete, spec_total_score. intros H.
  destruct (spec_cursor l 9 0) as [j |] eqn:Ec; [| discriminate].
  destruct (tenth_frame_walk _ _ H) as (Hj & x & Hx).
  destruct (walk_frames _ _ _ _ Ec ltac:(lia)) as (d & _ & _ & Hw).
  change 10%nat with (9 + 1)%nat. rewrite (Hw Hj), Hx. eauto.
Qed.

(** What [score] does on a game that is not complete. *)
Lemma incomplete_score_from (l : list Z) :
  spec_is_complete l = false ->
  score_from l 10 0 0 =
  if awaiting_bonus l then Return (padded_total l) else Raise IndexError.
Proof.
  unfold spec_is_complete, awaiting_bonus, padded_total. intros H.
  destruct (spec_cursor l 9 0) as [j |] eqn:Ec.
  - destruct (Nat.leb_spec (length l) j) as [Hj | Hj].
    + unfold strike_at, spare_at. rewrite (nth_error_ge_none _ _ Hj).
      cbn [orb andb].
      apply (score_from_raises l 9 0) with (k := 0%nat).
      rewrite Ec. exact Hj.
    + destruct (walk_frames _ _ _ _ Ec Hj) as (d & Hs & Hp & _).
      change 10%nat with (9 + 1)%nat. rewrite Hs, Hp.
      unfold spec_tenth_frame in H.
      destruct (Nat.leb_spec (length l) j) as [Hj' | _]; [lia |].
      unfold strike_at, spare_at in *.
      cbn [score_from padded_walk]. cbv zeta.
      rewrite (nth_error_in_range _ _ Hj) in *.
      destruct (nth j l 0 =? 10) eqn:E10.
      * cbn [orb andb] in *. apply Nat.leb_gt in H.
        destruct (Nat.ltb_spec (length l) (j + 3)) as [_ | Hc]; [| lia].
        rewrite strike_bonus_padded. f_equal. lia.
      * cbn [orb] in *.
        destruct (nth_error l (j + 1)) as [b |] eqn:Eb.
        -- rewrite (nth_error_nth _ _ 0 Eb).
           destruct (nth j l 0 + b =? 10).
           ++ apply Nat.leb_gt in H.
              destruct (Nat.ltb_spec (length l) (j + 3)) as [_ | Hc]; [| lia].
              cbn [andb]. rewrite nth_error_default. reflexivity.
           ++ cbn [andb]. apply Nat.leb_gt in H.
              apply nth_error_some_lt in Eb. lia.
        -- reflexivity.
  - apply (score_from_raises l 9 0) with (k := 0%nat).
    rewrite Ec. exact I.
Qed.

(** ** Reachable games *)

Lemma roll_success (pins : Z) (g g' : BowlingGame) :
  roll pins g = (Return tt, g') ->
  0 <= pins <= 10 /\ spec_is_complete (rolls g) = false /\
  g' = {| rolls := rolls g ++ [pins] |}.
Proof.
  rewrite roll_run.
  destruct (Z.ltb_spec pins 0) as [Hlo | Hlo]; cbn [orb]; [discriminate |].
  destruct (pins >? 10) eqn:Hhi; [discriminate |].
  rewrite Z.gtb_ltb in Hhi. apply Z.ltb_ge in Hhi.
  destruct (spec_is_complete (rolls g)); [discriminate |].
  intros H. injection H as <-. auto.
Qed.

Lemma roll_all_reachable (ps : list Z) :
  forall g g',
    reachable g -> roll_all ps g = (Return tt, g') -> reachable g'.
Proof.
  induction ps as [| p ps IH]; intros g g' Hg H; cbn [roll_all] in H.
  - unfold ret in H. injection H as <-. exact Hg.
  - unfold bind in H. destruct (roll p g) as [[[] | e] g1] eqn:Er.
    + apply (IH g1); [| exact H]. exact (reach_roll _ _ _ Hg Er).
    + discriminate.
Qed.

Lemma reachable_perfect_game : reachable perfect_game.
Proof.
  apply (roll_all_reachable (repeat 10 12) init); [exact reach_init |].
  vm_compute. reflexivity.
Qed.

Lemma reachable_ten_strikes : reachable ten_strikes.
Proof.
  apply (roll_all_reachable (repeat 10 10) init); [exact reach_init |].
  vm_compute. reflexivity.
Qed.

Lemma reachable_prefixes_incomplete (g : BowlingGame) :
  reachable g ->
  forall p, proper_prefix p (rolls g) -> spec_is_complete p = false.
Proof.
  induction 1 as [| g g' pins Hg IH Hr]; intros p (t & Ht & E).
  - cbn in E. symmetry in E. apply app_eq_nil in E. tauto.
  - apply roll_success in Hr. destruct Hr as (_ & Hinc & ->). cbn in E.
    destruct (exists_last Ht) as (t' & x & ->).
    rewrite app_assoc in E. apply app_inj_tail in E. destruct E as [E _].
    destruct t' as [| y t'].
    + rewrite app_nil_r in E. subst p. exact Hinc.
    + apply IH. exists (y :: t'). split; [discriminate | exact E].
Qed.

(** ** The claims *)

(** C1, as the code has it: [score] has no completion guard.  On a game
    for which [is_finished] is false it raises [IndexError] (an open-frame
    read past the end of [rolls]), except when frames 1 to 9 are resolved
    and the tenth frame is a strike or a spare still waiting for bonus
    rolls; then it returns an integer, the missing bonus rolls counting
    as 0.  Either way [rolls] is untouched. *)
Theorem score_on_incomplete_game (g : BowlingGame) :
  fst (is_finished g) = Return false ->
  score g =
  (if awaiting_bonus (rolls g)
   then Return (padded_total (rolls g))
   else Raise IndexError,
   g).
Proof.
  rewrite is_finished_run, score_run. cbn [fst]. intros H.
  injection H as H. rewrite (incomplete_score_from _ H). reflexivity.
Qed.

Lemma score_on_incomplete_game_witness :
  fst (is_finished init) = Return false /\
  score init = (Raise IndexError, init).
Proof.
  split; [reflexivity |].
  apply (score_on_incomplete_game init). reflexivity.
Defined.

(** C1, as stated, fails: after ten strikes (a reachable game that is not
    finished, two bonus rolls being due) [score] returns the integer 270
    instead of failing. *)
Lemma score_returns_on_incomplete_game :
  reachable ten_strikes /\
  fst (is_finished ten_strikes) = Return false /\
  fst (score ten_strikes) = Return 270.
Proof.
  split; [exact reachable_ten_strikes |].
  split; vm_compute; reflexivity.
Qed.

(** C2: on every game for which [is_finished] is true, [score] returns
    the value of the ten-frame walk with plain indexing (strike:
    [10 + rolls[i+1] + rolls[i+2]], cursor + 1; spare: [10 + rolls[i+2]],
    cursor + 2; open: [rolls[i] + rolls[i+1]], cursor + 2), every index of
    that walk being in range. *)
Theorem score_complete_game (g : BowlingGame) :
  fst (is_finished g) = Return true ->
  exists v,
    spec_total_score (rolls g) = Some v /\ score g = (Return v, g).
Proof.
  rewrite is_finished_run, score_run. cbn [fst]. intros H. injection H as H.
  destruct (complete_spec_walk_defined _ H) as [v Hv].
  exists v. split; [exact Hv |].
  rewrite (spec_walk_score _ _ _ _ _ Hv). reflexivity.
Qed.

Lemma score_complete_game_witness :
  fst (is_finished all_gutters) = Return true /\
  exists v,
    spec_total_score (rolls all_gutters) = Some v /\
    score all_gutters = (Return v, all_gutters).
Proof.
  split; [reflexivity |].
  apply (score_complete_game all_gutters). reflexivity.
Defined.

(** C3: [is_finished] never raises, leaves the game as it is, and returns
    exactly what the positional walk of the specification gives: the cursor
    is advanced through frames 1 to 9 (by 1 on a strike, else by 2, the
    answer being false when it reaches the end of the rolls); then a tenth
    frame that is a strike or a spare is complete iff
    [len(rolls) >= i + 3], and any other tenth frame iff its second roll is
    present. *)
Theorem is_finished_positional_walk (g : BowlingGame) :
  is_finished g = (Return (spec_is_complete (rolls g)), g) /\
  (fst (is_finished g) = Return true <->
   exists i,
     spec_cursor (rolls g) 9 0 = Some i /\
     (((strike_at (rolls g) i = true \/ spare_at (rolls g) i = true) /\
       (i + 3 <= length (rolls g))%nat) \/
      (strike_at (rolls g) i = false /\ spare_at (rolls g) i = false /\
       (i + 1 < length (rolls g))%nat))).
Proof.
  split; [apply is_finished_run |].
  rewrite is_finished_run. cbn [fst].
  unfold spec_is_complete, spec_tenth_frame.
  destruct (spec_cursor (rolls g) 9 0) as [j |].
  - assert (Hs : (length (rolls g) <= j)%nat ->
                 strike_at (rolls g) j = false /\
                 spare_at (rolls g) j = false).
    { intros Hj. unfold strike_at, spare_at.
      rewrite (nth_error_ge_none _ _ Hj). auto. }
    split.
    + intros H. injection H as H. exists j. split; [reflexivity |].
      destruct (Nat.leb_spec (length (rolls g)) j) as [Hj | Hj];
        [discriminate |].
      destruct (strike_at (rolls g) j || spare_at (rolls g) j) eqn:E.
      * left. apply orb_true_iff in E. apply Nat.leb_le in H. auto.
      * right. apply orb_false_iff in E. apply Nat.leb_le in H.
        destruct E. repeat split; auto. lia.
    + intros (i & Ei & H). injection Ei as <-. f_equal.
      destruct (Nat.leb_spec (length (rolls g)) j) as [Hj | Hj].
      * destruct (Hs Hj) as [S1 S2].
        destruct H as [[[H | H] _] | (_ & _ & H)];
          [congruence | congruence | lia].
      * destruct H as [[H Hl] | (S1 & S2 & Hl)].
        -- apply orb_true_iff in H. rewrite H. apply Nat.leb_le. exact Hl.
        -- rewrite S1, S2. cbn [orb]. apply Nat.leb_le. lia.
  - split; [discriminate |]. intros (i & Ei & _). discriminate.
Qed.

(** C4: [roll] tests the range of [pins] before it asks whether the game
    is finished: on a finished game, a pin count outside 0..10 fails with
    the invalid-roll error, not with the game-finished error, and the two
    are distinct. *)
Theorem roll_checks_range_first (g : BowlingGame) (pins : Z) :
  fst (is_finished g) = Return true ->
  pins < 0 \/ 10 < pins ->
  roll pins g = (Raise InvalidRollValue, g) /\
  InvalidRollValue <> GameAlreadyComplete.
Proof.
  intros _ Hp. split; [| discriminate].
  rewrite roll_run.
  assert ((pins <? 0) || (pins >? 10) = true) as ->; [| reflexivity].
  apply orb_true_iff. rewrite Z.gtb_ltb.
  destruct Hp; [left; apply Z.ltb_lt | right; apply Z.ltb_lt]; assumption.
Qed.

Lemma roll_checks_range_first_witness :
  fst (is_finished perfect_game) = Return true /\
  (11 < 0 \/ 10 < 11) /\
  roll 11 perfect_game = (Raise InvalidRollValue, perfect_game) /\
  InvalidRollValue <> GameAlreadyComplete.
Proof.
  split; [reflexivity |]. split; [right; lia |].
  apply (roll_checks_range_first perfect_game 11); [reflexivity | right; lia].
Defined.

(** C5: from a new game, twelve rolls of 10 are all accepted and [score]
    then returns 300. *)
Theorem perfect_game_scores_300 :
  roll_many 12 10 init = (Return tt, perfect_game) /\
  score perfect_game = (Return 300, perfect_game).
Proof. split; vm_compute; reflexivity. Qed.

(** C6: whenever [roll] raises, [rolls] is as it was before the call; and
    it raises either the invalid-roll error, [pins] being outside 0..10, or
    the game-finished error, [is_finished] being true. *)
Theorem roll_failure_is_atomic
  (g g' : BowlingGame) (pins : Z) (e : exn) :
  roll pins g = (Raise e, g') ->
  g' = g /\
  ((e = InvalidRollValue /\ (pins < 0 \/ 10 < pins)) \/
   (e = GameAlreadyComplete /\ fst (is_finished g) = Return true)).
Proof.
  rewrite roll_run, is_finished_run. cbn [fst].
  destruct (Z.ltb_spec pins 0) as [Hlo | Hlo]; cbn [orb].
  - intros H. injection H as <- <-. auto.
  - destruct (pins >? 10) eqn:Hhi.
    + intros H. injection H as <- <-.
      rewrite Z.gtb_ltb in Hhi. apply Z.ltb_lt in Hhi. auto.
    + destruct (spec_is_complete (rolls g)); [| discriminate].
      intros H. injection H as <- <-. auto.
Qed.

Lemma roll_failure_is_atomic_witness :
  roll 10 perfect_game = (Raise GameAlreadyComplete, perfect_game) /\
  perfect_game = perfect_game /\
  ((GameAlreadyComplete = InvalidRollValue /\ (10 < 0 \/ 10 < 10)) \/
   (GameAlreadyComplete = GameAlreadyComplete /\
    fst (is_finished perfect_game) = Return true)).
Proof.
  split; [reflexivity |].
  apply (roll_failure_is_atomic perfect_game perfect_game 10).
  reflexivity.
Defined.

(** C7 (invariant I1): in every game reached from a new game by successful
    [roll] calls, every element of [rolls] is between 0 and 10. *)
Theorem reachable_rolls_in_range (g : BowlingGame) :
  reachable g -> all_in_range (rolls g).
Proof.
  unfold all_in_range.
  induction 1 as [| g g' pins Hg IH Hr].
  - constructor.
  - apply roll_success in Hr. destruct Hr as (Hp & _ & ->). cbn [rolls].
    apply Forall_app. split; [exact IH |]. constructor; [exact Hp |].
    constructor.
Qed.

Lemma reachable_rolls_in_range_witness :
  reachable perfect_game /\ all_in_range (rolls perfect_game).
Proof.
  split; [exact reachable_perfect_game |].
  apply (reachable_rolls_in_range perfect_game). exact reachable_perfect_game.
Defined.

(** C8: for a game reached by successful [roll] calls on which
    [is_finished] is true, [is_finished] is false on every proper prefix of
    its rolls: completion appears only with the last recorded roll. *)
Theorem complete_game_prefixes_incomplete (g : BowlingGame) (p : list Z) :
  reachable g ->
  fst (is_finished g) = Return true ->
  proper_prefix p (rolls g) ->
  fst (is_finished {| rolls := p |}) = Return false.
Proof.
  intros Hg _ Hp. rewrite is_finished_run. cbn [fst rolls]. f_equal.
  exact (reachable_prefixes_incomplete g Hg p Hp).
Qed.

Lemma complete_game_prefixes_incomplete_witness :
  reachable perfect_game /\
  fst (is_finished perfect_game) = Return true /\
  proper_prefix (repeat 10 11) (rolls perfect_game) /\
  fst (is_finished {| rolls := repeat 10 11 |}) = Return false.
Proof.
  assert (Hp : proper_prefix (repeat 10 11) (rolls perfect_game)).
  { exists [10]. split; [discriminate | reflexivity]. }
  split; [exact reachable_perfect_game |].
  split; [reflexivity |]. split; [exact Hp |].
  apply (complete_game_prefixes_incomplete perfect_game (repeat 10 11));
    [exact reachable_perfect_game | reflexivity | exact Hp].
Defined.

(** C9: [score] and [is_finished] leave [rolls] unchanged; so calling
    [score] any number of times on the same instance gives the same outcome
    every time. *)
Theorem queries_leave_rolls_unchanged (g : BowlingGame) :
  snd (score g) = g /\
  snd (is_finished g) = g /\
  forall n, call_times n score g = (repeat (fst (score g)) n, g).
Proof.
  split; [rewrite score_run; reflexivity |].
  split; [rewrite is_finished_run; reflexivity |].
  induction n as [| n IH]; [reflexivity |].
  cbn [call_times repeat]. rewrite score_run in *. cbn [fst] in *.
  rewrite IH. reflexivity.
Qed.

(** C10: [roll] succeeds exactly when [pins] is between 0 and 10 and
    [is_finished] is false, and then appends [pins] and nothing else; no
    per-frame pin sum is checked, so 9 followed by 9 is accepted. *)
Theorem roll_succeeds_iff (g : BowlingGame) (pins : Z) :
  ((exists g', roll pins g = (Return tt, g')) <->
   (0 <= pins <= 10 /\ fst (is_finished g) = Return false)) /\
  (forall g', roll pins g = (Return tt, g') ->
              rolls g' = rolls g ++ [pins]) /\
  (roll 9 ;;; roll 9) init = (Return tt, {| rolls := [9; 9] |}).
Proof.
  split; [| split].
  - rewrite is_finished_run. cbn [fst]. split.
    + intros [g' H]. apply roll_success in H.
      destruct H as (Hp & Hc & _). rewrite Hc. auto.
    + intros [[Hlo Hhi] Hc]. injection Hc as Hc. rewrite roll_run, Hc.
      apply Z.ltb_ge in Hlo. rewrite Hlo. cbn [orb].
      rewrite Z.gtb_ltb. apply Z.ltb_ge in Hhi. rewrite Hhi. eauto.
  - intros g' H. apply roll_success in H. destruct H as (_ & _ & ->).
    reflexivity.
  - vm_compute. reflexivity.
Qed.

(** ** Further properties of the helpers, the cursor and the score *)

Lemma nth_in_range (l : list Z) (k : nat) :
  all_in_range l -> 0 <= nth k l 0 <= 10.
Proof.
  intros H. destruct (Nat.lt_ge_cases k (length l)) as [Hk | Hk].
  - unfold all_in_range in H. rewrite Forall_forall in H.
    apply H. apply nth_In. exact Hk.
  - rewrite (nth_overflow _ _ Hk). lia.
Qed.

Lemma perfect_game_in_range : all_in_range (rolls perfect_game).
Proof. unfold all_in_range. cbn. repeat constructor; lia. Qed.

Lemma score_from_bounds (l : list Z) :
  all_in_range l ->
  forall frames r i v,
    score_from l frames r i = Return v ->
    r <= v <= r + 30 * Z.of_nat frames.
Proof.
  intros Hl. induction frames as [| n IH]; intros r i v H.
  - cbn in H. injection H as <-. lia.
  - cbn [score_from] in H. rewrite Nat2Z.inj_succ.
    destruct (nth_error l i) as [a |] eqn:Ea; [| discriminate].
    apply (nth_error_nth _ _ 0) in Ea.
    pose proof (nth_in_range l i Hl) as Ha. rewrite Ea in Ha.
    pose proof (nth_in_range l (i + 1) Hl) as Hb.
    pose proof (nth_in_range l (i + 2) Hl) as Hc.
    destruct (a =? 10).
    + apply IH in H. rewrite strike_bonus_padded in H. lia.
    + destruct (nth_error l (i + 1)) as [b |] eqn:Eb; [| discriminate].
      apply (nth_error_nth _ _ 0) in Eb. rewrite Eb in Hb.
      destruct (a + b =? 10) eqn:Esp.
      * apply IH in H. rewrite nth_error_default in H. lia.
      * apply IH in H. lia.
Qed.

Lemma spec_cursor_le (l : list Z) (frames : nat) :
  forall i j, spec_cursor l frames i = Some j -> (j <= i + 2 * frames)%nat.
Proof.
  induction frames as [| k IH]; intros i j H; cbn [spec_cursor] in H.
  - injection H as <-. lia.
  - destruct (length l <=? i)%nat; [discriminate |].
    destruct (strike_at l i); apply IH in H; lia.
Qed.

Lemma spec_cursor_none (l : list Z) (frames : nat) :
  forall i, spec_cursor l frames i = None -> (length l < i + 2 * frames)%nat.
Proof.
  induction frames as [| k IH]; intros i H; cbn [spec_cursor] in H.
  - discriminate.
  - destruct (Nat.leb_spec (length l) i) as [Hi | Hi]; [lia |].
    destruct (strike_at l i); apply IH in H; lia.
Qed.

Lemma long_list_complete (l : list Z) :
  (21 <= length l)%nat -> spec_is_complete l = true.
Proof.
  intros Hl. unfold spec_is_complete, spec_tenth_frame.
  destruct (spec_cursor l 9 0) as [j |] eqn:Ec.
  - apply spec_cursor_le in Ec.
    destruct (Nat.leb_spec (length l) j) as [Hj | Hj]; [lia |].
    destruct (strike_at l j || spare_at l j); apply Nat.leb_le; lia.
  - apply spec_cursor_none in Ec. lia.
Qed.

Lemma complete_min_length (l : list Z) :
  spec_is_complete l = true -> (11 <= length l)%nat.
Proof.
  unfold spec_is_complete. intros H.
  destruct (spec_cursor l 9 0) as [j |] eqn:Ec; [| discriminate].
  apply spec_cursor_ge in Ec. apply tenth_frame_walk in H. lia.
Qed.

Lemma spec_cursor_app (l t : list Z) (frames : nat) :
  forall i j,
    spec_cursor l frames i = Some j -> spec_cursor (l ++ t) frames i = Some j.
Proof.
  induction frames as [| k IH]; intros i j H; cbn [spec_cursor] in *.
  - exact H.
  - destruct (Nat.leb_spec (length l) i) as [Hi | Hi]; [discriminate |].
    destruct (Nat.leb_spec (length (l ++ t)) i) as [Hi' | _].
    + rewrite length_app in Hi'. lia.
    + unfold strike_at in *. rewrite (nth_error_app1 l t Hi).
      destruct (nth_error l i) as [a |]; [| apply IH; exact H].
      destruct (a =? 10); apply IH; exact H.
Qed.

Lemma spec_tenth_frame_app (l t : list Z) (j : nat) :
  spec_tenth_frame l j = true -> spec_tenth_frame (l ++ t) j = true.
Proof.
  intros H. destruct (tenth_frame_walk _ _ H) as [Hj _].
  unfold spec_tenth_frame, strike_at, spare_at in *.
  destruct (Nat.leb_spec (length l) j) as [Hl | _]; [lia |].
  destruct (Nat.leb_spec (length (l ++ t)) j) as [Hl | _].
  { rewrite length_app in Hl. lia. }
  rewrite (nth_error_app1 l t (n := j)) by lia.
  rewrite (nth_error_app1 l t (n := j + 1)) by lia.
  rewrite length_app.
  destruct (_ || _); apply Nat.leb_le in H; apply Nat.leb_le; lia.
Qed.

Lemma spec_is_complete_app (l t : list Z) :
  spec_is_complete l = true -> spec_is_complete (l ++ t) = true.
Proof.
  unfold spec_is_complete. intros H.
  destruct (spec_cursor l 9 0) as [j |] eqn:Ec; [| discriminate].
  rewrite (spec_cursor_app _ t _ _ _ Ec). apply spec_tenth_frame_app. exact H.
Qed.

Lemma nth_error_app_some (l t : list Z) (k : nat) (v : Z) :
  nth_error l k = Some v -> nth_error (l ++ t) k = Some v.
Proof.
  intros H. rewrite nth_error_app1; [exact H |].
  apply (nth_error_some_lt _ _ _ H).
Qed.

Lemma spec_walk_app (l t : list Z) (frames : nat) :
  forall r i v,
    spec_walk l frames r i = Some v -> spec_walk (l ++ t) frames r i = Some v.
Proof.
  induction frames as [| n IH]; intros r i v H; cbn [spec_walk] in *.
  - exact H.
  - destruct (nth_error l i) as [a |] eqn:Ea; [| discriminate].
    rewrite (nth_error_app_some _ t _ _ Ea).
    destruct (a =? 10).
    + destruct (nth_error l (i + 1)) as [b |] eqn:Eb; [| discriminate].
      destruct (nth_error l (i + 2)) as [c |] eqn:Ec; [| discriminate].
      rewrite (nth_error_app_some _ t _ _ Eb), (nth_error_app_some _ t _ _ Ec).
      apply IH. exact H.
    + destruct (nth_error l (i + 1)) as [b |] eqn:Eb; [| discriminate].
      rewrite (nth_error_app_some _ t _ _ Eb).
      destruct (a + b =? 10).
      * destruct (nth_error l (i + 2)) as [c |] eqn:Ec; [| discriminate].
        rewrite (nth_error_app_some _ t _ _ Ec). apply IH. exact H.
      * apply IH. exact H.
Qed.

Lemma sum_acc (l : list Z) :
  forall a, fold_left Z.add l a = a + sum l.
Proof.
  unfold sum. induction l as [| x l IH]; intros a; cbn [fold_left].
  - lia.
  - rewrite (IH (a + x)), (IH (0 + x)). lia.
Qed.

Lemma sum_cons (x : Z) (l : list Z) : sum (x :: l) = x + sum l.
Proof. unfold sum at 1. cbn [fold_left]. rewrite sum_acc. lia. Qed.

Lemma flat_frames_length (fs : list (Z * Z)) :
  length (flat_frames fs) = (2 * length fs)%nat.
Proof.
  induction fs as [| f fs IH]; [reflexivity |].
  cbn [flat_frames flat_map app length] in *. unfold flat_frames in IH.
  rewrite IH. lia.
Qed.

Lemma nth_error_after (pre : list Z) (x : Z) (rest : list Z) :
  nth_error (pre ++ x :: rest) (length pre) = Some x.
Proof.
  rewrite nth_error_app2 by lia. rewrite Nat.sub_diag. reflexivity.
Qed.

Lemma nth_error_after2 (pre : list Z) (x y : Z) (rest : list Z) :
  nth_error (pre ++ x :: y :: rest) (length pre + 1) = Some y.
Proof.
  rewrite nth_error_app2 by lia.
  replace (length pre + 1 - length pre)%nat with 1%nat by lia. reflexivity.
Qed.

Lemma shift_two (pre : list Z) (x y : Z) (rest : list Z) :
  pre ++ x :: y :: rest = (pre ++ [x; y]) ++ rest /\
  (length pre + 2)%nat = length (pre ++ [x; y]).
Proof.
  split.
  - rewrite <- app_assoc. reflexivity.
  - rewrite length_app. reflexivity.
Qed.

Lemma open_frames_score_from (fs : list (Z * Z)) :
  Forall open_frame fs ->
  forall pre r,
    score_from (pre ++ flat_frames fs) (length fs) r (length pre) =
    Return (r + sum (flat_frames fs)).
Proof.
  induction 1 as [| [a b] fs [Ha Hab] _ IH]; intros pre r.
  - cbn. f_equal. unfold sum. cbn. lia.
  - cbn [fst snd] in Ha, Hab.
    change (flat_frames ((a, b) :: fs)) with (a :: b :: flat_frames fs).
    cbn [length score_from].
    rewrite nth_error_after, nth_error_after2.
    apply Z.eqb_neq in Ha, Hab. rewrite Ha, Hab.
    destruct (shift_two pre a b (flat_frames fs)) as [-> ->].
    rewrite IH, !sum_cons. f_equal. lia.
Qed.

Lemma open_frames_cursor (fs : list (Z * Z)) :
  Forall open_frame fs ->
  forall pre rest,
    spec_cursor (pre ++ flat_frames fs ++ rest) (length fs) (length pre) =
    Some (length pre + 2 * length fs)%nat.
Proof.
  induction 1 as [| [a b] fs [Ha _] _ IH]; intros pre rest.
  - cbn. f_equal. lia.
  - cbn [fst] in Ha.
    change (flat_frames ((a, b) :: fs) ++ rest)
      with (a :: b :: flat_frames fs ++ rest).
    cbn [length spec_cursor].
    destruct (Nat.leb_spec (length (pre ++ a :: b :: flat_frames fs ++ rest))
                (length pre)) as [Hl | _].
    { rewrite length_app in Hl. cbn [length] in Hl. lia. }
    unfold strike_at. rewrite nth_error_after.
    apply Z.eqb_neq in Ha. rewrite Ha.
    destruct (shift_two pre a b (flat_frames fs ++ rest)) as [-> ->].
    rewrite IH. f_equal. rewrite length_app. cbn [length]. lia.
Qed.

Lemma open_frames_complete (fs : list (Z * Z)) :
  length fs = 10%nat -> Forall open_frame fs ->
  spec_is_complete (flat_frames fs) = true.
Proof.
  intros Hlen Hopen.
  destruct (@exists_last _ fs) as (fs9 & [a b] & ->).
  { intros ->. discriminate. }
  rewrite length_app in Hlen. cbn [length] in Hlen.
  apply Forall_app in Hopen. destruct Hopen as [H9 H10].
  inversion H10 as [| ? ? [Ha Hab] _]. subst. cbn [fst snd] in Ha, Hab.
  unfold flat_frames. rewrite flat_map_app. fold (flat_frames fs9).
  cbn [flat_map fst snd app].
  unfold spec_is_complete.
  assert (E9 : length fs9 = 9%nat) by lia.
  pose proof (open_frames_cursor fs9 H9 [] [a; b]) as Hc.
  rewrite E9 in Hc. cbn [app length Nat.add Nat.mul] in Hc. rewrite Hc.
  pose proof (flat_frames_length fs9) as Hfl. rewrite E9 in Hfl.
  unfold spec_tenth_frame, strike_at, spare_at.
  rewrite length_app, Hfl. cbn [length Nat.mul Nat.add Nat.leb].
  change 18%nat with (2 * 9)%nat. rewrite <- Hfl.
  rewrite <- (Nat.add_1_r (length (flat_frames fs9))).
  rewrite nth_error_after, nth_error_after2.
  apply Z.eqb_neq in Ha, Hab. rewrite Ha, Hab. reflexivity.
Qed.



(** X3: [_strike_bonus] never raises: the slice clamps, so the bonus is the
    sum of the next two rolls with a roll that is not recorded counting as
    0.  It is 0 when the strike is the last roll, and between 0 and 20 when
    every roll is between 0 and 10. *)
Theorem strike_bonus_clamps (i : nat) (g : BowlingGame) :
  exists b,
    _strike_bonus i g = (Return b, g) /\
    b = nth (i + 1) (rolls g) 0 + nth (i + 2) (rolls g) 0 /\
    ((length (rolls g) <= i + 1)%nat -> b = 0) /\
    (all_in_range (rolls g) -> 0 <= b <= 20).
Proof.
  exists (sum (slice (rolls g) (i + 1) (i + 3))).
  split; [apply _strike_bonus_run |].
  rewrite strike_bonus_padded. split; [reflexivity |]. split.
  - intros H. rewrite !nth_overflow by lia. reflexivity.
  - intros H. pose proof (nth_in_range _ (i + 1) H).
    pose proof (nth_in_range _ (i + 2) H). lia.
Qed.


(** X5: when every roll is between 0 and 10, whatever [score] returns is
    between 0 and 300. *)
Theorem score_between_0_and_300 (g : BowlingGame) (v : Z) :
  all_in_range (rolls g) ->
  fst (score g) = Return v ->
  0 <= v <= 300.
Proof.
  intros Hl. rewrite score_run. cbn [fst]. intros H.
  apply (score_from_bounds _ Hl) in H. lia.
Qed.

Lemma score_between_0_and_300_witness :
  all_in_range (rolls perfect_game) /\
  fst (score perfect_game) = Return 300 /\
  0 <= 300 <= 300.
Proof.
  split; [exact perfect_game_in_range |]. split; [reflexivity |].
  apply (score_between_0_and_300 perfect_game 300);
    [exact perfect_game_in_range | reflexivity].
Defined.

(** X6: a game reached from a new game by successful [roll] calls never
    holds more than 21 rolls. *)
Theorem reachable_at_most_21_rolls (g : BowlingGame) :
  reachable g -> (length (rolls g) <= 21)%nat.
Proof.
  induction 1 as [| g g' pins Hg IH Hr]; [cbn; lia |].
  apply roll_success in Hr. destruct Hr as (_ & Hinc & ->).
  cbn [rolls]. rewrite length_app. cbn [length].
  destruct (Nat.le_gt_cases 21 (length (rolls g))) as [Hl | Hl]; [| lia].
  rewrite (long_list_complete _ Hl) in Hinc. discriminate.
Qed.

Lemma reachable_at_most_21_rolls_witness :
  reachable perfect_game /\ (length (rolls perfect_game) <= 21)%nat.
Proof.
  split; [exact reachable_perfect_game |].
  apply (reachable_at_most_21_rolls perfect_game).
  exact reachable_perfect_game.
Defined.

(** X7: [is_finished] is true only from the eleventh roll on: a game with
    fewer than 11 rolls is never finished. *)
Theorem finished_needs_11_rolls (g : BowlingGame) :
  fst (is_finished g) = Return true -> (11 <= length (rolls g))%nat.
Proof.
  rewrite is_finished_run. cbn [fst]. intros H. injection H as H.
  apply complete_min_length. exact H.
Qed.

Lemma finished_needs_11_rolls_witness :
  fst (is_finished nine_strikes_open) = Return true /\
  (11 <= length (rolls nine_strikes_open))%nat.
Proof.
  split; [reflexivity |].
  apply (finished_needs_11_rolls nine_strikes_open). reflexivity.
Defined.

(** X8: whatever the values in it, a rolls list of 21 or more entries is
    finished for [is_finished]. *)
Theorem finished_from_21_rolls (g : BowlingGame) :
  (21 <= length (rolls g))%nat -> is_finished g = (Return true, g).
Proof.
  intros H. rewrite is_finished_run, (long_list_complete _ H). reflexivity.
Qed.

Lemma finished_from_21_rolls_witness :
  (21 <= length (rolls all_fives))%nat /\
  is_finished all_fives = (Return true, all_fives).
Proof.
  split; [cbn; lia |].
  apply (finished_from_21_rolls all_fives). cbn. lia.
Defined.

(** X9: every game can be brought to an end.  From any game, repeating
    [roll] with one valid pin count (as [roll_many] does) succeeds and
    reaches a finished game within the rolls that remain up to 21. *)
Theorem roll_many_finishes (g : BowlingGame) (pins : Z) :
  0 <= pins <= 10 ->
  exists k g',
    (k <= 21 - length (rolls g))%nat /\
    roll_many k pins g = (Return tt, g') /\
    fst (is_finished g') = Return true.
Proof.
  intros Hp.
  remember (21 - length (rolls g))%nat as m eqn:Em.
  assert (Hm : (21 - length (rolls g) <= m)%nat) by lia. clear Em.
  revert g Hm. induction m as [| m IH]; intros g Hm.
  - exists 0%nat, g. split; [lia |]. split; [reflexivity |].
    rewrite is_finished_run, long_list_complete by lia. reflexivity.
  - destruct (spec_is_complete (rolls g)) eqn:Ec.
    + exists 0%nat, g. split; [lia |]. split; [reflexivity |].
      rewrite is_finished_run, Ec. reflexivity.
    + assert (Hl : (length (rolls g) <= 20)%nat).
      { destruct (Nat.le_gt_cases 21 (length (rolls g))) as [Hl | Hl];
          [| lia].
        rewrite (long_list_complete _ Hl) in Ec. discriminate. }
      destruct (IH {| rolls := rolls g ++ [pins] |}) as (k & g' & Hk & Hr & Hf).
      { cbn [rolls]. rewrite length_app. cbn [length]. lia. }
      exists (S k), g'. split; [lia |]. split; [| exact Hf].
      cbn [roll_many]. unfold bind. rewrite roll_run, Ec.
      destruct Hp as [Hlo Hhi].
      apply Z.ltb_ge in Hlo. rewrite Hlo. cbn [orb].
      rewrite Z.gtb_ltb. apply Z.ltb_ge in Hhi. rewrite Hhi. exact Hr.
Qed.

Lemma roll_many_finishes_witness :
  0 <= 0 <= 10 /\
  exists k g',
    (k <= 21 - length (rolls init))%nat /\
    roll_many k 0 init = (Return tt, g') /\
    fst (is_finished g') = Return true.
Proof.
  split; [lia |]. apply (roll_many_finishes init 0). lia.
Defined.

(** X10: [roll_many] is append-only but not atomic.  Whatever it does, the
    game it leaves holds the old rolls followed by [k] copies of [pins]:
    all [n] of them when it returns, fewer when it raises, and it only
    raises the two errors of [roll]. *)
Theorem roll_many_appends_prefix
  (n : nat) (pins : Z) (g g' : BowlingGame) (o : outcome unit) :
  roll_many n pins g = (o, g') ->
  exists k,
    rolls g' = rolls g ++ repeat pins k /\
    match o with
    | Return _ => k = n
    | Raise e =>
        (k < n)%nat /\ (e = InvalidRollValue \/ e = GameAlreadyComplete)
    end.
Proof.
  revert g. induction n as [| n IH]; intros g H; cbn [roll_many] in H.
  - unfold ret in H. injection H as <- <-. exists 0%nat.
    cbn [repeat]. rewrite app_nil_r. auto.
  - unfold bind in H. rewrite roll_run in H.
    destruct ((pins <? 0) || (pins >? 10)).
    + injection H as <- <-. exists 0%nat. cbn [repeat].
      rewrite app_nil_r. split; [reflexivity |]. split; [lia | auto].
    + destruct (spec_is_complete (rolls g)).
      * injection H as <- <-. exists 0%nat. cbn [repeat].
        rewrite app_nil_r. split; [reflexivity |]. split; [lia | auto].
      * apply IH in H. destruct H as (k & Hk & Ho). cbn [rolls] in Hk.
        exists (S k). split.
        -- rewrite Hk, <- app_assoc. reflexivity.
        -- destruct o as [[] | e]; [lia |].
           destruct Ho as [Hlt He]. split; [lia | exact He].
Qed.

Lemma roll_many_appends_prefix_witness :
  roll_many 13 10 init = (Raise GameAlreadyComplete, perfect_game) /\
  exists k,
    rolls perfect_game = rolls init ++ repeat 10 k /\
    (k < 13)%nat /\
    (GameAlreadyComplete = InvalidRollValue \/
     GameAlreadyComplete = GameAlreadyComplete).
Proof.
  split; [reflexivity |].
  apply (roll_many_appends_prefix 13 10 init perfect_game
           (Raise GameAlreadyComplete)).
  reflexivity.
Defined.

(** X11: once [is_finished] is true, entries added to [rolls] after that
    point change nothing: [is_finished] stays true and [score] returns the
    same value. *)
Theorem finished_game_ignores_later_rolls (g : BowlingGame) (t : list Z) :
  fst (is_finished g) = Return true ->
  fst (is_finished {| rolls := rolls g ++ t |}) = Return true /\
  fst (score {| rolls := rolls g ++ t |}) = fst (score g) /\
  exists v, fst (score g) = Return v.
Proof.
  rewrite !is_finished_run, !score_run. cbn [fst rolls]. intros H.
  injection H as H. split; [rewrite (spec_is_complete_app _ t H); reflexivity |].
  destruct (complete_spec_walk_defined _ H) as [v Hv].
  unfold spec_total_score in Hv.
  rewrite (spec_walk_score _ _ _ _ _ Hv).
  rewrite (spec_walk_score _ _ _ _ _ (spec_walk_app _ t _ _ _ _ Hv)).
  eauto.
Qed.

Lemma finished_game_ignores_later_rolls_witness :
  fst (is_finished perfect_game) = Return true /\
  fst (is_finished {| rolls := rolls perfect_game ++ [7; 7] |}) = Return true /\
  fst (score {| rolls := rolls perfect_game ++ [7; 7] |}) =
  fst (score perfect_game) /\
  exists v, fst (score perfect_game) = Return v.
Proof.
  split; [reflexivity |].
  apply (finished_game_ignores_later_rolls perfect_game [7; 7]). reflexivity.
Defined.

(** X12: a game of ten open frames (no strike, no spare) is finished after
    its twenty rolls, and [score] returns the plain sum of those rolls. *)
Theorem open_frames_score_is_sum (fs : list (Z * Z)) :
  length fs = 10%nat ->
  Forall open_frame fs ->
  fst (is_finished {| rolls := flat_frames fs |}) = Return true /\
  fst (score {| rolls := flat_frames fs |}) = Return (sum (flat_frames fs)).
Proof.
  intros Hlen Hopen. rewrite is_finished_run, score_run. cbn [fst rolls].
  split; [rewrite (open_frames_complete _ Hlen Hopen); reflexivity |].
  pose proof (open_frames_score_from fs Hopen [] 0) as H.
  rewrite Hlen in H. cbn [app length] in H. rewrite H. reflexivity.
Qed.

Lemma open_frames_score_is_sum_witness :
  length (repeat (3, 4) 10) = 10%nat /\
  Forall open_frame (repeat (3, 4) 10) /\
  fst (is_finished {| rolls := flat_frames (repeat (3, 4) 10) |}) =
  Return true /\
  fst (score {| rolls := flat_frames (repeat (3, 4) 10) |}) =
  Return (sum (flat_frames (repeat (3, 4) 10))).
Proof.
  assert (Ho : Forall open_frame (repeat (3, 4) 10)).
  { cbn. repeat constructor; cbn; lia. }
  split; [reflexivity |]. split; [exact Ho |].
  apply (open_frames_score_is_sum (repeat (3, 4) 10)); [reflexivity | exact Ho].
Defined.

(** X13: when [roll_spare] returns, the game holds the old rolls followed
    by 5 and 5, and at the place where they start [_is_spare] answers true
    and [_is_strike] false. *)
Theorem roll_spare_records_spare (g g' : BowlingGame) :
  roll_spare g = (Return tt, g') ->
  rolls g' = rolls g ++ [5; 5] /\
  _is_spare (length (rolls g)) g' = (Return true, g') /\
  _is_strike (length (rolls g)) g' = (Return false, g').
Proof.
  unfold roll_spare, bind. intros H.
  destruct (roll 5 g) as [[[] | e] g1] eqn:E1; [| discriminate].
  apply roll_success in E1. destruct E1 as (_ & _ & ->).
  apply roll_success in H. destruct H as (_ & _ & ->). cbn [rolls].
  rewrite _is_spare_run, _is_strike_run. cbn [rolls].
  unfold spare_at, strike_at. rewrite <- app_assoc. cbn [app].
  rewrite nth_error_after, nth_error_after2. auto.
Qed.

Lemma roll_spare_records_spare_witness :
  roll_spare init = (Return tt, {| rolls := [5; 5] |}) /\
  rolls {| rolls := [5; 5] |} = rolls init ++ [5; 5] /\
  _is_spare (length (rolls init)) {| rolls := [5; 5] |} =
  (Return true, {| rolls := [5; 5] |}) /\
  _is_strike (length (rolls init)) {| rolls := [5; 5] |} =
  (Return false, {| rolls := [5; 5] |}).
Proof.
  split; [reflexivity |].
  apply (roll_spare_records_spare init {| rolls := [5; 5] |}). reflexivity.
Defined.

(** X14: [roll_strike] returns exactly when the game is not finished; the
    game then holds the old rolls followed by 10, and [_is_strike] answers
    true at the place of the new roll. *)
Theorem roll_strike_records_strike (g : BowlingGame) :
  ((exists g', roll_strike g = (Return tt, g')) <->
   fst (is_finished g) = Return false) /\
  (forall g',
      roll_strike g = (Return tt, g') ->
      rolls g' = rolls g ++ [10] /\
      _is_strike (length (rolls g)) g' = (Return true, g')).
Proof.
  unfold roll_strike. rewrite is_finished_run. cbn [fst]. split.
  - split.
    + intros [g' H]. apply roll_success in H.
      destruct H as (_ & -> & _). reflexivity.
    + intros H. injection H as H. rewrite roll_run, H. cbn. eauto.
  - intros g' H. apply roll_success in H. destruct H as (_ & _ & ->).
    cbn [rolls]. split; [reflexivity |].
    rewrite _is_strike_run. cbn [rolls]. unfold strike_at.
    rewrite nth_error_after. reflexivity.
Qed.

(** ** Pins and score of a game played to its end *)

Lemma reachable_in_range (g : BowlingGame) :
  reachable g -> all_in_range (rolls g).
Proof.
  unfold all_in_range. induction 1 as [| g g' pins Hg IH Hr].
  - constructor.
  - apply roll_success in Hr. destruct Hr as (Hp & _ & ->). cbn [rolls].
    apply Forall_app. split; [exact IH |]. repeat constructor; lia.
Qed.

Lemma in_range_nonneg (l : list Z) : all_in_range l -> all_nonneg l.
Proof.
  unfold all_in_range, all_nonneg. apply Forall_impl. intros v Hv. lia.
Qed.

Lemma nth_nonneg (l : list Z) (k : nat) : all_nonneg l -> 0 <= nth k l 0.
Proof.
  intros H. destruct (Nat.lt_ge_cases k (length l)) as [Hk | Hk].
  - unfold all_nonneg in H. rewrite Forall_forall in H.
    apply H. apply nth_In. exact Hk.
  - rewrite (nth_overflow _ _ Hk). lia.
Qed.

Lemma sum_skipn_step (l : list Z) :
  forall i,
    (i < length l)%nat ->
    sum (skipn i l) = nth i l 0 + sum (skipn (i + 1) l).
Proof.
  induction l as [| x l IH]; intros i Hi; cbn [length] in Hi; [lia |].
  destruct i as [| i].
  - cbn [skipn nth Nat.add]. apply sum_cons.
  - cbn [skipn nth Nat.add]. apply IH. lia.
Qed.

Lemma sum_skipn_end (l : list Z) (i : nat) :
  (length l <= i)%nat -> sum (skipn i l) = 0.
Proof. intros H. rewrite skipn_all2 by exact H. reflexivity. Qed.

(** Along the frames of the cursor walk, the running result plus the pins
    not yet passed by the cursor never decreases. *)
Lemma pins_potential (l : list Z) :
  all_nonneg l ->
  forall frames i j,
    spec_cursor l frames i = Some j ->
    (j < length l)%nat ->
    forall k r v,
      score_from l (frames + k) r i = Return v ->
      exists r',
        r + sum (skipn i l) <= r' + sum (skipn j l) /\
        score_from l k r' j = Return v.
Proof.
  intros Hl. induction frames as [| n IH]; intros i j Hc Hj k r v H.
  - injection Hc as <-. exists r. split; [lia | exact H].
  - cbn [spec_cursor] in Hc.
    destruct (Nat.leb_spec (length l) i) as [Hi | Hi]; [discriminate |].
    unfold strike_at in Hc. rewrite (nth_error_in_range _ _ Hi) in Hc.
    cbn [Nat.add score_from] in H. rewrite (nth_error_in_range _ _ Hi) in H.
    pose proof (nth_nonneg l (i + 1) Hl) as Hb.
    pose proof (nth_nonneg l (i + 2) Hl) as Hc2.
    rewrite (sum_skipn_step l i Hi).
    destruct (nth i l 0 =? 10) eqn:E10.
    + apply Z.eqb_eq in E10.
      destruct (IH _ _ Hc Hj _ _ _ H) as (r' & Hr & Hs).
      exists r'. split; [| exact Hs].
      rewrite strike_bonus_padded in Hr. lia.
    + pose proof (spec_cursor_ge _ _ _ _ Hc) as Hge.
      rewrite (nth_error_in_range l (i + 1)) in H by lia.
      rewrite (sum_skipn_step l (i + 1)) by lia.
      replace (i + 1 + 1)%nat with (i + 2)%nat by lia.
      destruct (nth i l 0 + nth (i + 1) l 0 =? 10) eqn:Esp.
      * apply Z.eqb_eq in Esp.
        destruct (IH _ _ Hc Hj _ _ _ H) as (r' & Hr & Hs).
        exists r'. split; [| exact Hs].
        rewrite nth_error_default in Hr. lia.
      * destruct (IH _ _ Hc Hj _ _ _ H) as (r' & Hr & Hs).
        exists r'. split; [| exact Hs]. lia.
Qed.

Lemma spec_cursor_restrict (l t : list Z) (frames : nat) :
  forall i j,
    spec_cursor (l ++ t) frames i = Some j ->
    (j <= length l)%nat ->
    spec_cursor l frames i = Some j.
Proof.
  induction frames as [| n IH]; intros i j H Hj; cbn [spec_cursor] in *.
  - exact H.
  - destruct (Nat.leb_spec (length (l ++ t)) i) as [Hi | Hi]; [discriminate |].
    assert (Hlt : (i < length l)%nat).
    { destruct (strike_at (l ++ t) i); apply spec_cursor_ge in H; lia. }
    destruct (Nat.leb_spec (length l) i) as [Hi' | _]; [lia |].
    unfold strike_at in *. rewrite (nth_error_app1 l t Hlt) in H.
    destruct (nth_error l i) as [a |]; [| apply IH; assumption].
    destruct (a =? 10); apply IH; assumption.
Qed.

(** When the last roll is the one that completes the game, the list ends
    exactly where the tenth frame does. *)
Lemma last_roll_completes (l0 : list Z) (p : Z) :
  spec_is_complete (l0 ++ [p]) = true ->
  spec_is_complete l0 = false ->
  exists j,
    spec_cursor (l0 ++ [p]) 9 0 = Some j /\
    length (l0 ++ [p]) =
    (j + if strike_at (l0 ++ [p]) j || spare_at (l0 ++ [p]) j
         then 3 else 2)%nat.
Proof.
  unfold spec_is_complete. intros Hc Hi.
  destruct (spec_cursor (l0 ++ [p]) 9 0) as [j |] eqn:Ec; [| discriminate].
  exists j. split; [reflexivity |].
  destruct (tenth_frame_walk _ _ Hc) as [Hj2 _].
  unfold spec_tenth_frame in Hc.
  destruct (Nat.leb_spec (length (l0 ++ [p])) j) as [Hj | Hj]; [discriminate |].
  set (need := if strike_at (l0 ++ [p]) j || spare_at (l0 ++ [p]) j
               then 3%nat else 2%nat) in *.
  assert (Hneed : (j + need <= length (l0 ++ [p]))%nat).
  { unfold need.
    destruct (strike_at (l0 ++ [p]) j || spare_at (l0 ++ [p]) j);
      apply Nat.leb_le in Hc; exact Hc. }
  assert (Hn2 : (2 <= need)%nat).
  { unfold need.
    destruct (strike_at (l0 ++ [p]) j || spare_at (l0 ++ [p]) j); lia. }
  destruct (Nat.eq_dec (length (l0 ++ [p])) (j + need)) as [E | E];
    [exact E | exfalso].
  rewrite length_app in *. cbn [length] in *.
  assert (Hl0 : (j + need <= length l0)%nat) by lia.
  rewrite (spec_cursor_restrict l0 [p] 9 0 j Ec) in Hi by lia.
  unfold spec_tenth_frame in Hi.
  destruct (Nat.leb_spec (length l0) j) as [Hj0 | _]; [lia |].
  assert (Es : strike_at l0 j = strike_at (l0 ++ [p]) j).
  { unfold strike_at. rewrite nth_error_app1 by lia. reflexivity. }
  assert (Ep : spare_at l0 j = spare_at (l0 ++ [p]) j).
  { unfold spare_at. rewrite !nth_error_app1 by lia. reflexivity. }
  rewrite Es, Ep in Hi. unfold need in Hl0.
  destruct (strike_at (l0 ++ [p]) j || spare_at (l0 ++ [p]) j);
    apply Nat.leb_gt in Hi; lia.
Qed.

Lemma reachable_last_roll (g : BowlingGame) :
  reachable g ->
  spec_is_complete (rolls g) = true ->
  exists l0 p,
    rolls g = l0 ++ [p] /\ spec_is_complete l0 = false.
Proof.
  intros Hg Hc. destruct Hg as [| g g' pins Hg Hr].
  - cbn in Hc. discriminate.
  - apply roll_success in Hr. destruct Hr as (_ & Hi & ->).
    exists (rolls g), pins. auto.
Qed.

Lemma Return_inj (A : Type) (a b : A) : Return a = Return b -> a = b.
Proof. intros H. injection H as H. exact H. Qed.

Lemma finished_score_from (l : list Z) (j : nat) :
  all_nonneg l ->
  spec_cursor l 9 0 = Some j ->
  (j + 2 <= length l)%nat ->
  length l = (j + if strike_at l j || spare_at l j then 3 else 2)%nat ->
  forall v, score_from l 10 0 0 = Return v -> sum l <= v.
Proof.
  intros Hl Ec Hj2 Hlen v H.
  change 10%nat with (9 + 1)%nat in H.
  destruct (pins_potential l Hl 9 0 j Ec ltac:(lia) 1%nat 0 v H)
    as (r' & Hr & Hs).
  cbn [skipn] in Hr. cbn [score_from] in Hs.
  unfold strike_at, spare_at in Hlen.
  rewrite (nth_error_in_range l j) in * by lia.
  rewrite (nth_error_in_range l (j + 1)) in * by lia.
  rewrite (sum_skipn_step l j) in Hr by lia.
  rewrite (sum_skipn_step l (j + 1)) in Hr by lia.
  replace (j + 1 + 1)%nat with (j + 2)%nat in Hr by lia.
  pose proof (nth_nonneg l (j + 2) Hl) as Hc2.
  destruct (nth j l 0 =? 10) eqn:E10.
  - cbn [orb] in Hlen. apply Z.eqb_eq in E10.
    rewrite strike_bonus_padded in Hs. apply Return_inj in Hs. subst v.
    rewrite (sum_skipn_step l (j + 2)) in Hr by lia.
    rewrite (sum_skipn_end l (j + 2 + 1)) in Hr by lia. lia.
  - cbn [orb] in Hlen.
    destruct (nth j l 0 + nth (j + 1) l 0 =? 10) eqn:Esp.
    + apply Z.eqb_eq in Esp. rewrite nth_error_default in Hs.
      apply Return_inj in Hs. subst v.
      rewrite (sum_skipn_step l (j + 2)) in Hr by lia.
      rewrite (sum_skipn_end l (j + 2 + 1)) in Hr by lia. lia.
    + apply Return_inj in Hs. subst v.
      rewrite (sum_skipn_end l (j + 2)) in Hr by lia. lia.
Qed.

(** X15: a game played to its end holds no roll beyond what its tenth
    frame asks for.  In a finished game reached by successful [roll] calls,
    with [j] the cursor after nine frames, there are exactly [j + 3] rolls
    when the tenth frame starts with a strike or a spare, and exactly
    [j + 2] otherwise. *)
Theorem finished_game_roll_count (g : BowlingGame) :
  reachable g ->
  fst (is_finished g) = Return true ->
  exists j,
    first_nine 9 0 g = (Return (Some j), g) /\
    exists st sp,
      _is_strike j g = (Return st, g) /\
      _is_spare j g = (Return sp, g) /\
      length (rolls g) = (j + if st || sp then 3 else 2)%nat.
Proof.
  intros Hg. rewrite is_finished_run. cbn [fst]. intros H. injection H as H.
  destruct (reachable_last_roll g Hg H) as (l0 & p & E & Hi).
  rewrite E in H. destruct (last_roll_completes l0 p H Hi) as (j & Ec & Hlen).
  rewrite <- E in Ec, Hlen.
  exists j. split; [rewrite first_nine_run, Ec; reflexivity |].
  exists (strike_at (rolls g) j), (spare_at (rolls g) j).
  rewrite _is_strike_run, _is_spare_run. auto.
Qed.

Lemma finished_game_roll_count_witness :
  reachable perfect_game /\
  fst (is_finished perfect_game) = Return true /\
  exists j,
    first_nine 9 0 perfect_game = (Return (Some j), perfect_game) /\
    exists st sp,
      _is_strike j perfect_game = (Return st, perfect_game) /\
      _is_spare j perfect_game = (Return sp, perfect_game) /\
      length (rolls perfect_game) = (j + if st || sp then 3 else 2)%nat.
Proof.
  split; [exact reachable_perfect_game |]. split; [reflexivity |].
  apply (finished_game_roll_count perfect_game);
    [exact reachable_perfect_game | reflexivity].
Defined.

(** X16: in a finished game reached by successful [roll] calls, [score]
    returns at least the total of the pins rolled. *)
Theorem finished_score_at_least_pins (g : BowlingGame) :
  reachable g ->
  fst (is_finished g) = Return true ->
  exists v, score g = (Return v, g) /\ sum (rolls g) <= v.
Proof.
  intros Hg. rewrite is_finished_run, score_run. cbn [fst]. intros H.
  injection H as H.
  destruct (complete_spec_walk_defined _ H) as [v Hv].
  unfold spec_total_score in Hv. apply spec_walk_score in Hv.
  exists v. rewrite Hv. split; [reflexivity |].
  destruct (reachable_last_roll g Hg H) as (l0 & p & E & Hi).
  pose proof H as H'. rewrite E in H'.
  destruct (last_roll_completes l0 p H' Hi) as (j & Ec & Hlen).
  rewrite <- E in Ec, Hlen.
  assert (Hj2 : (j + 2 <= length (rolls g))%nat).
  { destruct (_ || _) in Hlen; lia. }
  apply (finished_score_from (rolls g) j); try assumption.
  apply in_range_nonneg. apply reachable_in_range. exact Hg.
Qed.

Lemma finished_score_at_least_pins_witness :
  reachable perfect_game /\
  fst (is_finished perfect_game) = Return true /\
  exists v,
    score perfect_game = (Return v, perfect_game) /\
    sum (rolls perfect_game) <= v.
Proof.
  split; [exact reachable_perfect_game |]. split; [reflexivity |].
  apply (finished_score_at_least_pins perfect_game);
    [exact reachable_perfect_game | reflexivity].
Defined.
